(** * Shallow embedding of scripts/generate_app_icon.py

    Modelling conventions.
    - Python integers are [Z]; [//] on the non-negative values used here is [Z.div].
    - Python floats in code that only uses [+ - * /] are modelled by exact
      rationals [Q]; where [math.sqrt] enters (the radial gradient) they are
      modelled by real numbers [R].  Binary rounding is not modelled.
    - [int(f)] on a float truncates toward zero ([py_int]).
    - A Pillow RGB image is a record with its size and a total pixel function;
      [ImageDraw] calls are recorded as a list of drawing commands that are
      rasterised in order (painter's algorithm, each pixel overwritten). *)

From Stdlib Require Import ZArith QArith Qround List Lia Bool String.
From Stdlib Require Import Reals Lra.
Import ListNotations.

Open Scope Z_scope.

(** ** Colours and images *)

Definition color : Type := (Z * Z * Z)%type.

Record image : Type := mk_image {
  width : Z;
  height : Z;
  px : Z -> Z -> color
}.

(** [Image.new('RGB', (w, h), c)]. *)
Definition image_new (w h : Z) (c : color) : image :=
  {| width := w; height := h; px := fun _ _ => c |}.

(** [pixels[x, y] = c] (the caller only writes pixels inside the image). *)
Definition put_pixel (img : image) (x y : Z) (c : color) : image :=
  {| width := width img; height := height img;
     px := fun x' y' => if (x' =? x) && (y' =? y) then c else px img x' y' |}.

(** ** Constants *)

Definition SIZE : Z := 1024.
Definition CENTER : Z := SIZE / 2.

Definition COLORS_background : color := (15, 23, 42).
Definition COLORS_card : color := (30, 41, 59).
Definition COLORS_primary : color := (99, 102, 241).
Definition COLORS_primary_light : color := (129, 140, 248).
Definition COLORS_accent : color := (34, 211, 238).
Definition COLORS_white : color := (248, 250, 252).

(** ** [int()] on a float, and [interpolate_color] *)

(** Python's [int(f)] truncates toward zero. *)
Definition py_int (q : Q) : Z :=
  if Qle_bool 0 q then Qfloor q else Qceiling q.

(** One channel: [int(color1[i] + (color2[i] - color1[i]) * ratio)]. *)
Definition interp_channel (c1 c2 : Z) (ratio : Q) : Z :=
  py_int (inject_Z c1 + inject_Z (c2 - c1) * ratio)%Q.

Definition interpolate_color (color1 color2 : color) (ratio : Q) : color :=
  let '(r1, g1, b1) := color1 in
  let '(r2, g2, b2) := color2 in
  (interp_channel r1 r2 ratio, interp_channel g1 g2 ratio,
   interp_channel b1 b2 ratio).

(** ** Pillow drawing primitives *)

(** A call on an [ImageDraw.Draw] object; coordinates are Python numbers
    (ints or floats), which Pillow converts with a C cast, i.e. [int()]. *)
Inductive draw_op : Type :=
| DRect (x0 y0 x1 y1 : Q) (fill : color)      (* draw.rectangle([..], fill=) *)
| DEllipse (x0 y0 x1 y1 : Q) (fill : color).  (* draw.ellipse([..], fill=) *)

Definition op_fill (op : draw_op) : color :=
  match op with DRect _ _ _ _ c | DEllipse _ _ _ _ c => c end.

Definition in_box (x0 y0 x1 y1 x y : Z) : bool :=
  (x0 <=? x) && (x <=? x1) && (y0 <=? y) && (y <=? y1).

(** Filled ellipse inscribed in the inclusive box [x0..x1] x [y0..y1]:
    the pixels of the box whose centres lie in the closed ellipse through the
    centres of the box's extreme pixels. *)
Definition ellipse_covers (x0 y0 x1 y1 x y : Z) : bool :=
  in_box x0 y0 x1 y1 x y &&
  (let a := x1 - x0 in let b := y1 - y0 in
   b * b * ((2 * x - x0 - x1) * (2 * x - x0 - x1)) +
   a * a * ((2 * y - y0 - y1) * (2 * y - y0 - y1)) <=? a * a * (b * b)).

Definition op_covers (op : draw_op) (x y : Z) : bool :=
  match op with
  | DRect x0 y0 x1 y1 _ =>
      in_box (py_int x0) (py_int y0) (py_int x1) (py_int y1) x y
  | DEllipse x0 y0 x1 y1 _ =>
      ellipse_covers (py_int x0) (py_int y0) (py_int x1) (py_int y1) x y
  end.

Definition in_canvas (img : image) (x y : Z) : bool :=
  (0 <=? x) && (x <? width img) && (0 <=? y) && (y <? height img).

(** Executing one drawing call: pixels covered and inside the canvas get the
    fill colour. *)
Definition apply_op (img : image) (op : draw_op) : image :=
  {| width := width img; height := height img;
     px := fun x y =>
       if in_canvas img x y && op_covers op x y then op_fill op else px img x y |}.

Definition apply_ops (img : image) (ops : list draw_op) : image :=
  fold_left apply_op ops img.

(** ** [draw_rounded_rect] *)

Definition Qz (z : Z) : Q := inject_Z z.

(** The calls [draw_rounded_rect(draw, bbox, radius, fill)] makes on [draw]. *)
Definition draw_rounded_rect (bbox : Z * Z * Z * Z) (radius : Z) (fill : color)
  : list draw_op :=
  let '(x1, y1, x2, y2) := bbox in
  [ DRect (Qz (x1 + radius)) (Qz y1) (Qz (x2 - radius)) (Qz y2) fill;
    DRect (Qz x1) (Qz (y1 + radius)) (Qz x2) (Qz (y2 - radius)) fill;
    DEllipse (Qz x1) (Qz y1) (Qz (x1 + 2 * radius)) (Qz (y1 + 2 * radius)) fill;
    DEllipse (Qz (x2 - 2 * radius)) (Qz y1) (Qz x2) (Qz (y1 + 2 * radius)) fill;
    DEllipse (Qz x1) (Qz (y2 - 2 * radius)) (Qz (x1 + 2 * radius)) (Qz y2) fill;
    DEllipse (Qz (x2 - 2 * radius)) (Qz (y2 - 2 * radius)) (Qz x2) (Qz y2) fill ].

(** ** [draw_dumbbell] *)

Definition bar_height : Z := 60.
Definition bar_width : Z := 400.
Definition weight_width : Z := 120.
Definition weight_height : Z := 280.
Definition weight_radius : Z := 30.
Definition cx : Z := CENTER.
Definition cy : Z := CENTER.
Definition bar_left : Z := cx - bar_width / 2.
Definition bar_top : Z := cy - bar_height / 2.
Definition left_weight_left : Z := bar_left - 20.
Definition left_weight_right : Z := left_weight_left + weight_width.
Definition weight_top : Z := cy - weight_height / 2.
Definition weight_bottom : Z := cy + weight_height / 2.
Definition right_weight_right : Z := cx + bar_width / 2 + 20.
Definition right_weight_left : Z := right_weight_right - weight_width.
Definition inner_margin : Z := 20.
Definition bar_segments : Z := 20.
(** [segment_width = bar_width / bar_segments] (true division, a float). *)
Definition segment_width : Q := (Qz bar_width / Qz bar_segments)%Q.

(** Iteration [i] of [for i in range(bar_segments)]. *)
Definition bar_segment (primary_color accent_color : color) (i : Z) : draw_op :=
  let ratio := (Qz i / Qz (bar_segments - 1))%Q in
  let c := interpolate_color primary_color accent_color ratio in
  let seg_left := (Qz bar_left + Qz i * segment_width)%Q in
  let seg_right := (Qz bar_left + Qz (i + 1) * segment_width + 1)%Q in
  DRect seg_left (Qz bar_top) seg_right (Qz (bar_top + bar_height)) c.

(** [range(n)] for [n >= 0]. *)
Definition py_range (n : Z) : list Z := map Z.of_nat (seq 0 (Z.to_nat n)).

Definition left_plate (primary_color : color) : list draw_op :=
  draw_rounded_rect
    (left_weight_left, weight_top, left_weight_right, weight_bottom)
    weight_radius primary_color.

Definition left_inset (primary_color : color) : list draw_op :=
  draw_rounded_rect
    (left_weight_left + inner_margin, weight_top + inner_margin,
     left_weight_right - inner_margin, weight_bottom - inner_margin)
    (weight_radius - 10)
    (interpolate_color primary_color COLORS_primary_light (3 # 10)).

Definition bar_ops (primary_color accent_color : color) : list draw_op :=
  map (bar_segment primary_color accent_color) (py_range bar_segments).

Definition right_plate (accent_color : color) : list draw_op :=
  draw_rounded_rect
    (right_weight_left, weight_top, right_weight_right, weight_bottom)
    weight_radius accent_color.

Definition right_inset (accent_color : color) : list draw_op :=
  draw_rounded_rect
    (right_weight_left + inner_margin, weight_top + inner_margin,
     right_weight_right - inner_margin, weight_bottom - inner_margin)
    (weight_radius - 10)
    (interpolate_color accent_color COLORS_white (2 # 10)).

(** All the calls [draw_dumbbell] makes on its [ImageDraw.Draw], in order. *)
Definition draw_dumbbell_ops (primary_color accent_color : color) : list draw_op :=
  left_plate primary_color ++ left_inset primary_color ++
  bar_ops primary_color accent_color ++
  right_plate accent_color ++ right_inset accent_color.

(** [draw_dumbbell(img, primary, accent)]: mutates [img] and returns it. *)
Definition draw_dumbbell (img : image) (primary_color accent_color : color) : image :=
  apply_ops img (draw_dumbbell_ops primary_color accent_color).

(** ** [create_radial_gradient] *)

(** [int(r)] on a float holding the real [r]: truncation toward zero. *)
Definition py_int_R (r : R) : Z :=
  if Rle_dec 0 r then Int_part r else (- Int_part (- r))%Z.

(** [max_dist = math.sqrt(2) * (size // 2)]. *)
Definition max_dist (size : Z) : R := (sqrt 2 * IZR (size / 2))%R.

(** [math.sqrt((x - size // 2) ** 2 + (y - size // 2) ** 2)]. *)
Definition grad_dist (size x y : Z) : R :=
  sqrt (IZR ((x - size / 2) ^ 2 + (y - size / 2) ^ 2)).

(** Float division [a / b]: raises [ZeroDivisionError] when [b == 0.0]. *)
Definition py_div (a b : R) : option R :=
  if Req_EM_T b 0 then None else Some (a / b)%R.

(** [int(c0 + (c1 - c0) * ratio)]. *)
Definition grad_channel (c0 c1 : Z) (ratio : R) : Z :=
  py_int_R (IZR c0 + IZR (c1 - c0) * ratio)%R.

(** The body of the double loop at pixel [(x, y)]: [None] is the exception. *)
Definition gradient_pixel (size : Z) (center_color edge_color : color) (x y : Z)
  : option color :=
  match py_div (grad_dist size x y) (max_dist size) with
  | None => None
  | Some q =>
      let ratio := Rmin q 1 in
      let '(r0, g0, b0) := center_color in
      let '(r1, g1, b1) := edge_color in
      Some (grad_channel r0 r1 ratio, grad_channel g0 g1 ratio,
            grad_channel b0 b1 ratio)
  end.

Definition gradient_row (size : Z) (center_color edge_color : color) (y : Z)
  (acc : option image) (x : Z) : option image :=
  match acc with
  | None => None
  | Some img =>
      match gradient_pixel size center_color edge_color x y with
      | None => None
      | Some c => Some (put_pixel img x y c)
      end
  end.

Definition create_radial_gradient (size : Z) (center_color edge_color : color)
  : option image :=
  fold_left
    (fun acc y => fold_left (gradient_row size center_color edge_color y)
                            (py_range size) acc)
    (py_range size)
    (Some (image_new size size center_color)).

(** The contract of the spec (section 4.1), with the centre and the maximal
    distance taken from the code: [ratio = min(dist / max_dist, 1)]. *)
Definition gradient_ratio (size : Z) (d : R) : R := Rmin (d / max_dist size) 1.

Definition lerp_R (c0 c1 : color) (ratio : R) : color :=
  let '(r0, g0, b0) := c0 in
  let '(r1, g1, b1) := c1 in
  (grad_channel r0 r1 ratio, grad_channel g0 g1 ratio, grad_channel b0 b1 ratio).

(** ** Variant generators *)

Definition generate_main_icon : option image :=
  match create_radial_gradient SIZE COLORS_card COLORS_background with
  | None => None
  | Some img => Some (draw_dumbbell img COLORS_primary COLORS_accent)
  end.

Definition dark_center : color := (20, 30, 50).
Definition dark_edge : color := (10, 15, 30).

Definition generate_dark_icon : option image :=
  match create_radial_gradient SIZE dark_center dark_edge with
  | None => None
  | Some img => Some (draw_dumbbell img COLORS_primary_light COLORS_accent)
  end.

Definition generate_tinted_icon : option image :=
  match create_radial_gradient SIZE (60, 60, 60) (30, 30, 30) with
  | None => None
  | Some img => Some (draw_dumbbell img (180, 180, 180) (220, 220, 220))
  end.

(** ** [main]: directory creation, generation and saving *)

(** What a file on disk holds: a complete PNG, or what a failed write left. *)
Inductive file_content : Type :=
| Png (data : list Byte.byte)
| Partial.

Definition fs_state : Type := string -> option file_content.

Definition fs_update (fs : fs_state) (p : string) (v : option file_content)
  : fs_state :=
  fun q => if String.eqb q p then v else fs q.

(** How the file system answers a write to a path. *)
Inductive save_outcome : Type :=
| SaveOk
| SaveFailBeforeOpen   (* e.g. permission denied: nothing is written *)
| SaveFailAfterOpen.   (* e.g. disk full: a truncated file is left *)

(** The world [main] runs in: the project directory two levels above the
    script, whether [os.makedirs] succeeds, how writes end, and the disk. *)
Record env : Type := mk_env {
  env_project_dir : string;
  env_makedirs_ok : bool;
  env_save : string -> save_outcome;
  env_fs : fs_state
}.

Inductive event : Type :=
| EPrint (s : string)
| EMakedirs (d : string)
| EGenerate (variant : string)
| ESaved (name path : string) (data : list Byte.byte)
| ESaveFailed (name path : string).

Definition mstate : Type := (fs_state * list event)%type.

(** State and exception monad: an exception keeps the state reached so far
    (nothing is rolled back), and stops the rest of the program. *)
Definition M (A : Type) : Type := mstate -> option A * mstate.

Definition ret {A} (a : A) : M A := fun s => (Some a, s).

Definition bind {A B} (m : M A) (k : A -> M B) : M B :=
  fun s => match m s with
           | (Some a, s') => k a s'
           | (None, s') => (None, s')
           end.

Notation "x <- m ;; k" := (bind m (fun x => k))
  (at level 61, m at next level, right associativity).
Notation "m ;;; k" := (bind m (fun _ => k))
  (at level 61, right associativity).

Definition log (ev : event) : M unit :=
  fun '(fs, tr) => (Some tt, (fs, tr ++ [ev])).

Definition raise {A} : M A := fun s => (None, s).

Definition path_join (d f : string) : string := (d ++ "/" ++ f)%string.

Definition output_dir (e : env) : string :=
  (env_project_dir e ++ "/gymtrackpromax/Assets.xcassets/AppIcon.appiconset")%string.

Definition py_print (s : string) : M unit := log (EPrint s).

(** [os.makedirs(output_dir, exist_ok=True)]. *)
Definition makedirs (e : env) (d : string) : M unit :=
  if env_makedirs_ok e then log (EMakedirs d) else raise.

(** Calling one of the generators. *)
Definition generate (variant : string) (result : option image) : M image :=
  log (EGenerate variant) ;;;
  match result with Some img => ret img | None => raise end.

Section Main.

(** Pillow's PNG encoder, a function of the image. *)
Variable png_encode : image -> list Byte.byte.

(** [img.save(os.path.join(output_dir, name), 'PNG')]. *)
Definition save (e : env) (img : image) (name : string) : M unit :=
  fun '(fs, tr) =>
    let p := path_join (output_dir e) name in
    let data := png_encode img in
    match env_save e p with
    | SaveOk => (Some tt, (fs_update fs p (Some (Png data)), tr ++ [ESaved name p data]))
    | SaveFailBeforeOpen => (None, (fs, tr ++ [ESaveFailed name p]))
    | SaveFailAfterOpen =>
        (None, (fs_update fs p (Some Partial), tr ++ [ESaveFailed name p]))
    end.

Definition main (e : env) : M unit :=
  let out := output_dir e in
  py_print ("Output directory: " ++ out) ;;;
  makedirs e out ;;;
  py_print "Generating main icon..." ;;;
  main_icon <- generate "main" generate_main_icon ;;
  save e main_icon "AppIcon.png" ;;;
  py_print "  Saved AppIcon.png" ;;;
  py_print "Generating dark mode icon..." ;;;
  dark_icon <- generate "dark" generate_dark_icon ;;
  save e dark_icon "AppIcon-Dark.png" ;;;
  py_print "  Saved AppIcon-Dark.png" ;;;
  py_print "Generating tinted icon..." ;;;
  tinted_icon <- generate "tinted" generate_tinted_icon ;;
  save e tinted_icon "AppIcon-Tinted.png" ;;;
  py_print "  Saved AppIcon-Tinted.png" ;;;
  py_print (String (Ascii.ascii_of_nat 10) "All icons generated successfully!") ;;;
  py_print ("Icons saved to: " ++ out).

(** One run from the initial disk: result, final disk and event trace. *)
Definition run_main (e : env) : option unit * mstate := main e (env_fs e, []).

End Main.

(** The generation and file events of a trace, prints and directory creation
    left out. *)
Definition is_io_event (ev : event) : bool :=
  match ev with EGenerate _ | ESaved _ _ _ | ESaveFailed _ _ => true | _ => false end.

Definition io_events (tr : list event) : list event := filter is_io_event tr.

(** The bytes a trace saved under a file name (the last successful save). *)
Fixpoint saved_content (tr : list event) (name : string) : option (list Byte.byte) :=
  match tr with
  | [] => None
  | ESaved n _ d :: tr' =>
      match saved_content tr' name with
      | Some d' => Some d'
      | None => if String.eqb n name then Some d else None
      end
  | _ :: tr' => saved_content tr' name
  end.

Definition opt_agree {A} (o1 o2 : option A) : Prop :=
  match o1, o2 with Some a, Some b => a = b | _, _ => True end.

(** The image a generator produced. *)
Definition the_icon (o : option image) : image :=
  match o with Some img => img | None => image_new 0 0 (0, 0, 0) end.

(** The generator whose image [main] saves under a file name. *)
Definition variant_of_file (name : string) : option image :=
  if String.eqb name "AppIcon.png" then generate_main_icon
  else if String.eqb name "AppIcon-Dark.png" then generate_dark_icon
  else generate_tinted_icon.

(** ** Specification-side definitions *)

Definition between (a b v : Z) : Prop := Z.min a b <= v <= Z.max a b.

(** Section 4.2 of the spec, in its words: each channel is
    [floor(c1 + (c2 - c1) * r)]. *)
Definition interpolate_color_floor (color1 color2 : color) (ratio : Q) : color :=
  let '(r1, g1, b1) := color1 in
  let '(r2, g2, b2) := color2 in
  (Qfloor (inject_Z r1 + inject_Z (r2 - r1) * ratio),
   Qfloor (inject_Z g1 + inject_Z (g2 - g1) * ratio),
   Qfloor (inject_Z b1 + inject_Z (b2 - b1) * ratio)).

(** Truncation toward zero written with floor and ceiling. *)
Definition trunc_zero (v : Q) : Z := if Qle_bool 0 v then Qfloor v else Qceiling v.

(** ** Lemmas on [py_int] and [interp_channel] *)

From Stdlib Require Import Lqa.

Lemma py_int_Z (z : Z) : py_int (inject_Z z) = z.
Proof.
  unfold py_int. destruct (Qle_bool 0 (inject_Z z)).
  - apply Qfloor_Z.
  - apply Qceiling_Z.
Qed.

Lemma py_int_mono (q1 q2 : Q) : (q1 <= q2)%Q -> py_int q1 <= py_int q2.
Proof.
  intros H. unfold py_int.
  destruct (Qle_bool 0 q1) eqn:E1, (Qle_bool 0 q2) eqn:E2;
    apply Qle_bool_iff in E1 || apply Qle_bool_imp_le in E1 || idtac;
    try apply Qle_bool_imp_le in E2.
  - now apply Qfloor_resp_le.
  - exfalso. assert (Qle_bool 0 q2 = true) as E by (apply Qle_bool_iff; lra).
    congruence.
  - transitivity 0.
    + change 0 with (Qceiling 0). apply Qceiling_resp_le.
      destruct (Qlt_le_dec q1 0) as [Hl|Hl]; [lra|].
      apply Qle_bool_iff in Hl. congruence.
    + change 0 with (Qfloor 0). now apply Qfloor_resp_le.
  - now apply Qceiling_resp_le.
Qed.

Lemma lerp_Q_between (qa qd r : Q) :
  (0 <= r <= 1)%Q ->
  ((0 <= qd)%Q -> (qa <= qa + qd * r <= qa + qd)%Q) /\
  ((qd <= 0)%Q -> (qa + qd <= qa + qd * r <= qa)%Q).
Proof.
  intros [H0 H1]. split; intros Hd.
  - assert (0 <= qd * r)%Q by (apply Qmult_le_0_compat; lra).
    assert (0 <= qd * (1 - r))%Q by (apply Qmult_le_0_compat; lra).
    lra.
  - assert (0 <= - qd * r)%Q by (apply Qmult_le_0_compat; lra).
    assert (0 <= - qd * (1 - r))%Q by (apply Qmult_le_0_compat; lra).
    lra.
Qed.

Lemma inject_Z_sub (a b : Z) : (inject_Z b == inject_Z a + inject_Z (b - a))%Q.
Proof. rewrite <- inject_Z_plus. apply inject_Z_injective. lia. Qed.

Lemma interp_channel_between (a b : Z) (r : Q) :
  (0 <= r <= 1)%Q -> between a b (interp_channel a b r).
Proof.
  intros Hr. unfold between, interp_channel.
  destruct (lerp_Q_between (inject_Z a) (inject_Z (b - a)) r Hr) as [Hp Hn].
  pose proof (inject_Z_sub a b) as Hs.
  destruct (Z.le_ge_cases a b) as [Hab|Hab].
  - rewrite Z.min_l, Z.max_r by lia.
    assert (Hd : (0 <= inject_Z (b - a))%Q)
      by (change 0%Q with (inject_Z 0); rewrite <- Zle_Qle; lia).
    destruct (Hp Hd) as [Hl Hu].
    split.
    + rewrite <- (py_int_Z a) at 1. now apply py_int_mono.
    + rewrite <- (py_int_Z b) at 2. apply py_int_mono. lra.
  - rewrite Z.min_r, Z.max_l by lia.
    assert (Hd : (inject_Z (b - a) <= 0)%Q)
      by (change 0%Q with (inject_Z 0); rewrite <- Zle_Qle; lia).
    destruct (Hn Hd) as [Hl Hu].
    split.
    + rewrite <- (py_int_Z b) at 1. apply py_int_mono. lra.
    + rewrite <- (py_int_Z a) at 3. now apply py_int_mono.
Qed.

Lemma py_int_comp (q1 q2 : Q) : (q1 == q2)%Q -> py_int q1 = py_int q2.
Proof.
  intros H. apply Z.le_antisymm; apply py_int_mono; lra.
Qed.

Lemma interp_channel_0 (a b : Z) : interp_channel a b 0 = a.
Proof.
  unfold interp_channel. transitivity (py_int (inject_Z a)).
  - apply py_int_comp. ring.
  - apply py_int_Z.
Qed.

Lemma interp_channel_1 (a b : Z) : interp_channel a b 1 = b.
Proof.
  unfold interp_channel. transitivity (py_int (inject_Z b)).
  - apply py_int_comp. rewrite (inject_Z_sub a b). ring.
  - apply py_int_Z.
Qed.


Lemma trunc_zero_floor (v : Q) : (0 <= v)%Q -> trunc_zero v = Qfloor v.
Proof.
  intros H. unfold trunc_zero. apply Qle_bool_iff in H. now rewrite H.
Qed.

(** ** Claims on [interpolate_color] *)

(** C4: for a ratio in [[0, 1]] every channel of [interpolate_color c0 c1 r]
    lies between the corresponding channels of [c0] and [c1]; ratio 0 gives
    [c0] and ratio 1 gives [c1] exactly. *)
Theorem interpolate_color_between_endpoints (c0 c1 : color) (r : Q) :
  (0 <= r <= 1)%Q ->
  (let '(r0, g0, b0) := c0 in
   let '(r1, g1, b1) := c1 in
   let '(r', g', b') := interpolate_color c0 c1 r in
   between r0 r1 r' /\ between g0 g1 g' /\ between b0 b1 b') /\
  interpolate_color c0 c1 0 = c0 /\ interpolate_color c0 c1 1 = c1.
Proof.
  intros Hr. destruct c0 as [[r0 g0] b0], c1 as [[r1 g1] b1]. cbn.
  rewrite !interp_channel_0, !interp_channel_1.
  repeat split; apply interp_channel_between; assumption.
Qed.

Lemma interpolate_color_between_endpoints_witness :
  (0 <= 3 # 10 <= 1)%Q /\
  (let '(r0, g0, b0) := COLORS_primary in
   let '(r1, g1, b1) := COLORS_primary_light in
   let '(r', g', b') := interpolate_color COLORS_primary COLORS_primary_light (3 # 10) in
   between r0 r1 r' /\ between g0 g1 g' /\ between b0 b1 b') /\
  interpolate_color COLORS_primary COLORS_primary_light 0 = COLORS_primary /\
  interpolate_color COLORS_primary COLORS_primary_light 1 = COLORS_primary_light.
Proof.
  assert (H : (0 <= 3 # 10 <= 1)%Q) by (split; vm_compute; discriminate).
  split; [exact H | exact (interpolate_color_between_endpoints COLORS_primary COLORS_primary_light _ H)].
Defined.

(** C5 (as stated: floor of [c1 + (c2 - c1) r] for every ratio) fails for a
    negative ratio: [int()] truncates [-0.5] to [0], floor gives [-1]. *)
Lemma interpolate_color_not_floor :
  interpolate_color (0, 0, 0) (2, 2, 2) (-1 # 4) = (0, 0, 0) /\
  interpolate_color_floor (0, 0, 0) (2, 2, 2) (-1 # 4) = (-1, -1, -1) /\
  interpolate_color (0, 0, 0) (2, 2, 2) (-1 # 4)
    <> interpolate_color_floor (0, 0, 0) (2, 2, 2) (-1 # 4).
Proof. vm_compute. split; [reflexivity | split; [reflexivity | discriminate]]. Qed.

(** C5 amended: for every two colours and every ratio (nothing is clamped),
    each channel is [c1 + (c2 - c1) r] truncated toward zero (floor when that
    value is non-negative, ceiling when it is negative); so it is the floor
    whenever the value is non-negative, e.g. for channels in [[0, 255]] and a
    ratio in [[0, 1]]. *)
Theorem interpolate_color_trunc (c1 c2 : color) (r : Q) :
  (let '(r1, g1, b1) := c1 in
   let '(r2, g2, b2) := c2 in
   interpolate_color c1 c2 r =
     (trunc_zero (inject_Z r1 + inject_Z (r2 - r1) * r),
      trunc_zero (inject_Z g1 + inject_Z (g2 - g1) * r),
      trunc_zero (inject_Z b1 + inject_Z (b2 - b1) * r))) /\
  (let '(r1, g1, b1) := c1 in
   let '(r2, g2, b2) := c2 in
   (0 <= inject_Z r1 + inject_Z (r2 - r1) * r)%Q ->
   (0 <= inject_Z g1 + inject_Z (g2 - g1) * r)%Q ->
   (0 <= inject_Z b1 + inject_Z (b2 - b1) * r)%Q ->
   interpolate_color c1 c2 r = interpolate_color_floor c1 c2 r).
Proof.
  destruct c1 as [[r1 g1] b1], c2 as [[r2 g2] b2]. split.
  - reflexivity.
  - intros Hr Hg Hb. cbn -[Qfloor Qceiling].
    unfold interp_channel.
    change (py_int ?v) with (trunc_zero v).
    now rewrite !trunc_zero_floor.
Qed.

Lemma interpolate_color_trunc_witness :
  (0 <= inject_Z 180 + inject_Z (129 - 180) * (3 # 10))%Q /\
  interpolate_color (180, 180, 180) COLORS_primary_light (3 # 10) =
  interpolate_color_floor (180, 180, 180) COLORS_primary_light (3 # 10).
Proof.
  split; [vm_compute; discriminate|].
  apply (proj2 (interpolate_color_trunc (180, 180, 180) COLORS_primary_light (3 # 10)));
    vm_compute; discriminate.
Defined.

(** ** Lemmas on [create_radial_gradient] *)

Lemma py_range_mem (n x : Z) :
  existsb (Z.eqb x) (py_range n) = (0 <=? x) && (x <? n).
Proof.
  destruct (existsb (Z.eqb x) (py_range n)) eqn:E; symmetry.
  - apply existsb_exists in E as [z [Hin Hz]]. apply Z.eqb_eq in Hz. subst z.
    unfold py_range in Hin. apply in_map_iff in Hin as [k [Hk Hin]].
    apply in_seq in Hin. subst x.
    apply andb_true_iff; split; [apply Z.leb_le | apply Z.ltb_lt]; lia.
  - apply not_true_iff_false. intros H.
    apply andb_true_iff in H as [H1 H2].
    apply Z.leb_le in H1. apply Z.ltb_lt in H2.
    assert (Hin : In x (py_range n)).
    { unfold py_range. apply in_map_iff. exists (Z.to_nat x). split; [lia|].
      apply in_seq. lia. }
    assert (existsb (Z.eqb x) (py_range n) = true)
      by (apply existsb_exists; exists x; split; [exact Hin | apply Z.eqb_refl]).
    congruence.
Qed.

Lemma max_dist_nonzero (size : Z) : size / 2 <> 0 -> max_dist size <> 0%R.
Proof.
  intros H. unfold max_dist. apply Rmult_integral_contrapositive. split.
  - apply Rgt_not_eq, sqrt_lt_R0. Lra.lra.
  - now apply not_0_IZR.
Qed.

(** The colour the loop writes at [(x, y)] when it does not raise. *)
Definition grad_color (size : Z) (c0 c1 : color) (x y : Z) : color :=
  lerp_R c0 c1 (gradient_ratio size (grad_dist size x y)).

Lemma gradient_pixel_ok (size : Z) (c0 c1 : color) (x y : Z) :
  size / 2 <> 0 ->
  gradient_pixel size c0 c1 x y = Some (grad_color size c0 c1 x y).
Proof.
  intros H. unfold gradient_pixel, py_div, grad_color, gradient_ratio.
  destruct (Req_EM_T (max_dist size) 0) as [E|E].
  - exfalso. exact (max_dist_nonzero size H E).
  - destruct c0 as [[r0 g0] b0], c1 as [[r1 g1] b1]. reflexivity.
Qed.

Lemma gradient_row_ok (size : Z) (c0 c1 : color) (y : Z) :
  size / 2 <> 0 ->
  forall xs img, exists img',
    fold_left (gradient_row size c0 c1 y) xs (Some img) = Some img' /\
    width img' = width img /\ height img' = height img /\
    forall x' y', px img' x' y' =
      if (y' =? y) && existsb (Z.eqb x') xs then grad_color size c0 c1 x' y'
      else px img x' y'.
Proof.
  intros H xs. induction xs as [|x xs IH]; intros img.
  - exists img. repeat split. intros x' y'. cbn. now rewrite andb_false_r.
  - cbn [fold_left]. unfold gradient_row at 2.
    rewrite (gradient_pixel_ok size c0 c1 x y H).
    destruct (IH (put_pixel img x y (grad_color size c0 c1 x y)))
      as [img' [Hf [Hw [Hh Hp]]]].
    exists img'. split; [exact Hf|]. split; [exact Hw|]. split; [exact Hh|].
    intros x' y'. rewrite Hp. cbn [existsb put_pixel px].
    destruct (y' =? y) eqn:Ey, (x' =? x) eqn:Ex, (existsb (Z.eqb x') xs);
      cbn; try reflexivity.
    apply Z.eqb_eq in Ey, Ex. now subst.
Qed.

Lemma gradient_rows_ok (size : Z) (c0 c1 : color) :
  size / 2 <> 0 ->
  forall ys img, exists img',
    fold_left (fun acc y => fold_left (gradient_row size c0 c1 y) (py_range size) acc)
      ys (Some img) = Some img' /\
    width img' = width img /\ height img' = height img /\
    forall x' y', px img' x' y' =
      if existsb (Z.eqb y') ys && existsb (Z.eqb x') (py_range size)
      then grad_color size c0 c1 x' y' else px img x' y'.
Proof.
  intros H ys. induction ys as [|y ys IH]; intros img.
  - exists img. repeat split.
  - cbn [fold_left].
    destruct (gradient_row_ok size c0 c1 y H (py_range size) img)
      as [img1 [Hf1 [Hw1 [Hh1 Hp1]]]].
    rewrite Hf1.
    destruct (IH img1) as [img' [Hf [Hw [Hh Hp]]]].
    exists img'. split; [exact Hf|]. split; [congruence|]. split; [congruence|].
    intros x' y'. rewrite Hp, Hp1. cbn [existsb].
    destruct (Z.eqb y' y) eqn:Ey, (existsb (Z.eqb y') ys),
      (existsb (Z.eqb x') (py_range size)); reflexivity.
Qed.

Lemma create_radial_gradient_ok (size : Z) (c0 c1 : color) :
  2 <= size ->
  exists img, create_radial_gradient size c0 c1 = Some img /\
    width img = size /\ height img = size /\
    forall x y, px img x y =
      if (0 <=? x) && (x <? size) && (0 <=? y) && (y <? size)
      then grad_color size c0 c1 x y else c0.
Proof.
  intros Hs.
  assert (H : size / 2 <> 0).
  { assert (1 <= size / 2) by (apply Z.div_le_lower_bound; lia). lia. }
  destruct (gradient_rows_ok size c0 c1 H (py_range size) (image_new size size c0))
    as [img [Hf [Hw [Hh Hp]]]].
  exists img. split; [exact Hf|]. split; [exact Hw|]. split; [exact Hh|].
  intros x y. rewrite Hp, !py_range_mem.
  destruct (0 <=? x), (x <? size), (0 <=? y), (y <? size); reflexivity.
Qed.

Lemma py_int_R_IZR (z : Z) : py_int_R (IZR z) = z.
Proof.
  assert (Hi : forall w, Int_part (IZR w) = w).
  { intros w. symmetry. apply Int_part_spec. Lra.lra. }
  unfold py_int_R. destruct (Rle_dec 0 (IZR z)).
  - apply Hi.
  - rewrite <- opp_IZR, Hi. lia.
Qed.

Lemma lerp_R_0 (c0 c1 : color) : lerp_R c0 c1 0 = c0.
Proof.
  destruct c0 as [[r0 g0] b0], c1 as [[r1 g1] b1]. unfold lerp_R, grad_channel.
  rewrite !Rmult_0_r, !Rplus_0_r, !py_int_R_IZR. reflexivity.
Qed.

Lemma lerp_R_1 (c0 c1 : color) : lerp_R c0 c1 1 = c1.
Proof.
  destruct c0 as [[r0 g0] b0], c1 as [[r1 g1] b1]. unfold lerp_R, grad_channel.
  rewrite !Rmult_1_r, !minus_IZR.
  replace (IZR r0 + (IZR r1 - IZR r0))%R with (IZR r1) by ring.
  replace (IZR g0 + (IZR g1 - IZR g0))%R with (IZR g1) by ring.
  replace (IZR b0 + (IZR b1 - IZR b0))%R with (IZR b1) by ring.
  rewrite !py_int_R_IZR. reflexivity.
Qed.

Lemma max_dist_pos (size : Z) : 2 <= size -> (0 < max_dist size)%R.
Proof.
  intros Hs. unfold max_dist. apply Rmult_lt_0_compat.
  - apply sqrt_lt_R0. Lra.lra.
  - apply IZR_lt. assert (1 <= size / 2) by (apply Z.div_le_lower_bound; lia). lia.
Qed.

Lemma gradient_ratio_0 (size : Z) : gradient_ratio size 0 = 0%R.
Proof.
  unfold gradient_ratio, Rdiv. rewrite Rmult_0_l. apply Rmin_left. Lra.lra.
Qed.

Lemma gradient_ratio_far (size : Z) (d : R) :
  2 <= size -> (max_dist size <= d)%R -> gradient_ratio size d = 1%R.
Proof.
  intros Hs Hd. pose proof (max_dist_pos size Hs) as Hm.
  unfold gradient_ratio. apply Rmin_right.
  unfold Rdiv. rewrite <- (Rinv_r (max_dist size)) by Lra.lra.
  apply Rmult_le_compat_r; [|exact Hd].
  left. now apply Rinv_0_lt_compat.
Qed.

Lemma gradient_ratio_mono (size : Z) (d d' : R) :
  2 <= size -> (0 <= d <= d')%R ->
  (gradient_ratio size d <= gradient_ratio size d')%R.
Proof.
  intros Hs Hd. pose proof (max_dist_pos size Hs) as Hm.
  assert (H : (d / max_dist size <= d' / max_dist size)%R).
  { unfold Rdiv. apply Rmult_le_compat_r; [|Lra.lra].
    left. now apply Rinv_0_lt_compat. }
  unfold gradient_ratio, Rmin.
  destruct (Rle_dec (d / max_dist size) 1), (Rle_dec (d' / max_dist size) 1);
    Lra.lra.
Qed.

Lemma grad_dist_center (size : Z) : grad_dist size (size / 2) (size / 2) = 0%R.
Proof.
  unfold grad_dist. rewrite Z.sub_diag. cbn. apply sqrt_0.
Qed.

(** ** Claim on [create_radial_gradient] *)




(** ** Lemmas on the drawing commands *)

(** Fill colour of the last command covering [(x, y)], if any. *)
Fixpoint last_cover (ops : list draw_op) (x y : Z) : option color :=
  match ops with
  | [] => None
  | op :: ops' =>
      match last_cover ops' x y with
      | Some c => Some c
      | None => if op_covers op x y then Some (op_fill op) else None
      end
  end.

(** The last element of [l] satisfying [f], if any. *)
Fixpoint last_idx (f : Z -> bool) (l : list Z) : option Z :=
  match l with
  | [] => None
  | i :: l' =>
      match last_idx f l' with
      | Some j => Some j
      | None => if f i then Some i else None
      end
  end.

Lemma apply_ops_size (img : image) (ops : list draw_op) :
  width (apply_ops img ops) = width img /\ height (apply_ops img ops) = height img.
Proof.
  revert img. induction ops as [|op ops IH]; intros img; [split; reflexivity|].
  cbn [apply_ops fold_left]. destruct (IH (apply_op img op)) as [Hw Hh].
  unfold apply_ops in Hw, Hh. rewrite Hw, Hh. split; reflexivity.
Qed.

Lemma apply_ops_px (img : image) (ops : list draw_op) (x y : Z) :
  px (apply_ops img ops) x y =
  if in_canvas img x y then
    match last_cover ops x y with Some c => c | None => px img x y end
  else px img x y.
Proof.
  revert img. induction ops as [|op ops IH]; intros img.
  - cbn. now destruct (in_canvas img x y).
  - cbn [apply_ops fold_left last_cover]. unfold apply_ops in IH. rewrite IH.
    assert (Hc : in_canvas (apply_op img op) x y = in_canvas img x y) by reflexivity.
    rewrite Hc. cbn [apply_op px].
    destruct (in_canvas img x y); cbn; [|reflexivity].
    destruct (last_cover ops x y); [reflexivity|].
    now destruct (op_covers op x y).
Qed.

Lemma last_cover_none (ops : list draw_op) (x y : Z) :
  (forall op, In op ops -> op_covers op x y = false) -> last_cover ops x y = None.
Proof.
  induction ops as [|op ops IH]; intros H; [reflexivity|].
  cbn. rewrite IH by (intros; apply H; now right).
  now rewrite (H op (or_introl eq_refl)).
Qed.

Lemma last_cover_some_in (ops : list draw_op) (x y : Z) (c : color) :
  last_cover ops x y = Some c -> exists op, In op ops /\ op_fill op = c.
Proof.
  induction ops as [|op ops IH]; cbn; [discriminate|].
  destruct (last_cover ops x y) as [c'|].
  - intros E. destruct (IH E) as [o [Ho Hc]]. exists o. split; [now right | exact Hc].
  - destruct (op_covers op x y); intros E; [|discriminate].
    injection E as <-. exists op. split; [now left | reflexivity].
Qed.

Lemma last_cover_covered (ops : list draw_op) (x y : Z) :
  (exists op, In op ops /\ op_covers op x y = true) -> last_cover ops x y <> None.
Proof.
  induction ops as [|op ops IH]; intros [o [Ho Hc]]; [destruct Ho|].
  cbn. destruct (last_cover ops x y) eqn:E; [discriminate|].
  destruct Ho as [<-|Ho].
  - now rewrite Hc.
  - exfalso. apply IH; [now exists o | reflexivity].
Qed.

Lemma last_cover_uniform (ops : list draw_op) (x y : Z) (c : color) :
  (forall op, In op ops -> op_fill op = c) ->
  (exists op, In op ops /\ op_covers op x y = true) ->
  last_cover ops x y = Some c.
Proof.
  intros Hf Hex. destruct (last_cover ops x y) as [c'|] eqn:E.
  - destruct (last_cover_some_in ops x y c' E) as [o [Ho Hc]].
    rewrite <- Hc. f_equal. now apply Hf.
  - exfalso. exact (last_cover_covered ops x y Hex E).
Qed.

Definition op_bbox (op : draw_op) : Z * Z * Z * Z :=
  match op with
  | DRect x0 y0 x1 y1 _ | DEllipse x0 y0 x1 y1 _ =>
      (py_int x0, py_int y0, py_int x1, py_int y1)
  end.

Lemma op_covers_bbox (op : draw_op) (x y : Z) :
  op_covers op x y = true ->
  let '(x0, y0, x1, y1) := op_bbox op in x0 <= x <= x1 /\ y0 <= y <= y1.
Proof.
  destruct op as [x0 y0 x1 y1 c|x0 y0 x1 y1 c]; cbn [op_covers op_bbox].
  - unfold in_box. rewrite !andb_true_iff, !Z.leb_le. tauto.
  - unfold ellipse_covers, in_box. rewrite !andb_true_iff, !Z.leb_le. tauto.
Qed.

Definition bbox_within (l t r b : Z) (bb : Z * Z * Z * Z) : bool :=
  let '(x0, y0, x1, y1) := bb in (l <=? x0) && (x1 <=? r) && (t <=? y0) && (y1 <=? b).

Lemma draw_dumbbell_ops_within (primary accent : color) :
  forallb (fun op => bbox_within 292 372 732 652 (op_bbox op))
          (draw_dumbbell_ops primary accent) = true.
Proof. vm_compute. reflexivity. Qed.

Lemma draw_dumbbell_ops_length (primary accent : color) :
  List.length (draw_dumbbell_ops primary accent) = 44%nat.
Proof. reflexivity. Qed.

(** ** Claims on [draw_dumbbell] *)

(** C2: in every call [draw_dumbbell(img, primary, accent)] the second
    rounded rectangle (the inset of the left plate, box (312, 392, 392, 632),
    radius 20) is filled with [interpolate_color(primary, (129, 140, 248), 0.3)],
    [(129, 140, 248)] being [COLORS['primary_light']]; the accent plays no
    part, and for the grey primary of the tinted icon the fill is the
    non-grey (164, 168, 200). *)
Theorem left_inset_fill (primary accent : color) :
  COLORS_primary_light = (129, 140, 248) /\
  firstn 6 (skipn 6 (draw_dumbbell_ops primary accent)) =
    draw_rounded_rect (312, 392, 392, 632) 20
      (interpolate_color primary (129, 140, 248) (3 # 10)) /\
  (primary = (180, 180, 180) ->
   interpolate_color primary (129, 140, 248) (3 # 10) = (164, 168, 200)).
Proof.
  split; [reflexivity|]. split.
  - reflexivity.
  - intros ->. vm_compute. reflexivity.
Qed.

Lemma left_inset_fill_witness :
  (180, 180, 180) = (180, 180, 180) /\
  COLORS_primary_light = (129, 140, 248) /\
  firstn 6 (skipn 6 (draw_dumbbell_ops (180, 180, 180) (220, 220, 220))) =
    draw_rounded_rect (312, 392, 392, 632) 20
      (interpolate_color (180, 180, 180) (129, 140, 248) (3 # 10)) /\
  interpolate_color (180, 180, 180) (129, 140, 248) (3 # 10) = (164, 168, 200).
Proof.
  destruct (left_inset_fill (180, 180, 180) (220, 220, 220)) as [H1 [H2 H3]].
  split; [reflexivity|]. split; [exact H1|]. split; [exact H2|].
  apply H3. reflexivity.
Defined.

(** C6: the bar is drawn by 20 rectangles, calls 12 to 31 of [draw_dumbbell];
    segment [i] (0 <= i <= 19) has the nominal box
    [312 + 20 i .. 312 + 20 (i + 1)] of width 20, is drawn one unit further to
    the right, so it overlaps the next segment by one unit, spans rows
    482 to 542, and is filled with [interpolate_color(primary, accent, i/19)]. *)
Theorem bar_segments_layout (primary accent : color) (i : nat) :
  (i < 20)%nat ->
  List.length (bar_ops primary accent) = 20%nat /\
  (segment_width == 20)%Q /\
  exists x0 y0 x1 y1,
    nth_error (draw_dumbbell_ops primary accent) (12 + i) =
      Some (DRect x0 y0 x1 y1
              (interpolate_color primary accent (Qz (Z.of_nat i) / 19))) /\
    (x0 == 312 + 20 * Qz (Z.of_nat i))%Q /\
    (x1 == 312 + 20 * Qz (Z.of_nat i + 1) + 1)%Q /\
    (x1 == x0 + segment_width + 1)%Q /\
    (y0 == 482)%Q /\ (y1 == 542)%Q.
Proof.
  intros Hi. split; [reflexivity|]. split; [reflexivity|].
  unfold draw_dumbbell_ops.
  rewrite app_assoc, nth_error_app2 by (cbn; lia).
  rewrite nth_error_app1
    by (cbn [List.length app left_plate left_inset draw_rounded_rect]; unfold bar_ops, py_range;
        rewrite !length_map, length_seq; cbn; lia).
  cbn [List.length app left_plate left_inset draw_rounded_rect].
  replace (12 + i - 12)%nat with i by lia.
  unfold bar_ops, py_range. rewrite map_map, nth_error_map, nth_error_seq.
  replace (Nat.ltb i (Z.to_nat bar_segments)) with true
    by (symmetry; apply Nat.ltb_lt; cbn; lia).
  cbn [option_map Nat.add]. unfold bar_segment.
  eexists _, _, _, _. split; [reflexivity|].
  unfold Qz, segment_width, bar_left, bar_top, bar_height, bar_segments, bar_width,
    cx, CENTER, SIZE.
  rewrite !inject_Z_plus. cbn -[inject_Z Qmult Qplus].
  assert (Hw : (Qz 400 / Qz 20 == 20)%Q) by reflexivity.
  set (q := inject_Z (Z.of_nat i)).
  repeat split; rewrite ?Hw; cbv [inject_Z]; ring.
Qed.

Lemma bar_segments_layout_witness :
  (3 < 20)%nat /\
  List.length (bar_ops COLORS_primary COLORS_accent) = 20%nat /\
  (segment_width == 20)%Q /\
  exists x0 y0 x1 y1,
    nth_error (draw_dumbbell_ops COLORS_primary COLORS_accent) (12 + 3) =
      Some (DRect x0 y0 x1 y1
              (interpolate_color COLORS_primary COLORS_accent (Qz (Z.of_nat 3) / 19))) /\
    (x0 == 312 + 20 * Qz (Z.of_nat 3))%Q /\
    (x1 == 312 + 20 * Qz (Z.of_nat 3 + 1) + 1)%Q /\
    (x1 == x0 + segment_width + 1)%Q /\
    (y0 == 482)%Q /\ (y1 == 542)%Q.
Proof.
  assert (H : (3 < 20)%nat) by lia.
  split; [exact H|].
  exact (bar_segments_layout COLORS_primary COLORS_accent 3 H).
Defined.

(** C10: [draw_dumbbell] leaves every pixel outside the rectangle
    [292 <= x <= 732], [372 <= y <= 652] as it was, and keeps the size. *)
Theorem draw_dumbbell_frame (img : image) (primary accent : color) :
  width (draw_dumbbell img primary accent) = width img /\
  height (draw_dumbbell img primary accent) = height img /\
  forall x y, ~ (292 <= x <= 732 /\ 372 <= y <= 652) ->
    px (draw_dumbbell img primary accent) x y = px img x y.
Proof.
  destruct (apply_ops_size img (draw_dumbbell_ops primary accent)) as [Hw Hh].
  split; [exact Hw|]. split; [exact Hh|].
  intros x y Hout. unfold draw_dumbbell. rewrite apply_ops_px.
  rewrite last_cover_none; [now destruct (in_canvas img x y)|].
  intros op Hin. destruct (op_covers op x y) eqn:E; [|reflexivity].
  exfalso. apply Hout.
  pose proof (draw_dumbbell_ops_within primary accent) as Hall.
  rewrite forallb_forall in Hall. specialize (Hall op Hin).
  apply op_covers_bbox in E.
  destruct (op_bbox op) as [[[x0 y0] x1] y1].
  unfold bbox_within in Hall. rewrite !andb_true_iff, !Z.leb_le in Hall. lia.
Qed.

(** ** Claim on the tinted icon *)

Lemma generate_tinted_icon_ok :
  exists img, generate_tinted_icon = Some (draw_dumbbell img (180, 180, 180) (220, 220, 220)) /\
    width img = SIZE /\ height img = SIZE.
Proof.
  destruct (create_radial_gradient_ok SIZE (60, 60, 60) (30, 30, 30))
    as [img [Hf [Hw [Hh _]]]]; [unfold SIZE; lia|].
  exists img. unfold generate_tinted_icon. rewrite Hf. auto.
Qed.

(** C1 (every pixel of the tinted icon is grey) fails: the left plate's inset
    is filled with [interpolate_color((180, 180, 180), COLORS['primary_light'],
    0.3) = (164, 168, 200)], and pixel (350, 400) of the result has that
    colour, a red/blue gap of 36. *)
Theorem tinted_icon_not_grayscale :
  exists img, generate_tinted_icon = Some img /\
    0 <= 350 < width img /\ 0 <= 400 < height img /\
    px img 350 400 = (164, 168, 200) /\
    let '(r, g, b) := px img 350 400 in Z.abs (b - r) = 36.
Proof.
  destruct generate_tinted_icon_ok as [img [He [Hw Hh]]].
  assert (Hp : px (draw_dumbbell img (180, 180, 180) (220, 220, 220)) 350 400
               = (164, 168, 200)).
  { unfold draw_dumbbell. rewrite apply_ops_px.
    unfold in_canvas. rewrite Hw, Hh. vm_compute. reflexivity. }
  exists (draw_dumbbell img (180, 180, 180) (220, 220, 220)).
  destruct (apply_ops_size img (draw_dumbbell_ops (180, 180, 180) (220, 220, 220)))
    as [Hw' Hh'].
  unfold draw_dumbbell at 2 3. rewrite Hw', Hh', Hw, Hh, Hp. unfold SIZE.
  split; [exact He|]. repeat split; lia.
Qed.

(** ** Claim on [draw_rounded_rect] *)

Definition black_canvas : image := image_new 10 10 (0, 0, 0).


Ltac not_covered :=
  cbn [op_covers]; unfold Qz; rewrite ?py_int_Z;
  apply not_true_iff_false;
  first
    [ unfold in_box; rewrite !andb_true_iff, !Z.leb_le; lia
    | unfold ellipse_covers, in_box; rewrite !andb_true_iff, !Z.leb_le; lia
    | unfold ellipse_covers, in_box; rewrite !andb_true_iff, !Z.leb_le;
      intros [_ Hq]; nia ].

Lemma rect_covers_Z (a b c d : Z) (f : color) (x y : Z) :
  op_covers (DRect (Qz a) (Qz b) (Qz c) (Qz d) f) x y = in_box a b c d x y.
Proof. cbn. unfold Qz. now rewrite !py_int_Z. Qed.



(** ** Lemmas on [main] *)

Definition icon_path (e : env) (name : string) : string := path_join (output_dir e) name.

Lemma generate_main_icon_ok : exists img, generate_main_icon = Some img.
Proof.
  destruct (create_radial_gradient_ok SIZE COLORS_card COLORS_background)
    as [img [Hf _]]; [unfold SIZE; lia|].
  unfold generate_main_icon. rewrite Hf. eauto.
Qed.

Lemma generate_dark_icon_ok : exists img, generate_dark_icon = Some img.
Proof.
  destruct (create_radial_gradient_ok SIZE dark_center dark_edge)
    as [img [Hf _]]; [unfold SIZE; lia|].
  unfold generate_dark_icon. rewrite Hf. eauto.
Qed.

Lemma generate_tinted_icon_some : exists img, generate_tinted_icon = Some img.
Proof.
  destruct generate_tinted_icon_ok as [img [He _]]. eauto.
Qed.

Lemma append_cancel_l (s t1 t2 : string) : (s ++ t1 = s ++ t2)%string -> t1 = t2.
Proof.
  induction s as [|c s IH]; cbn; [trivial|]. intros H. injection H. exact IH.
Qed.

Lemma icon_paths_distinct (e : env) :
  icon_path e "AppIcon.png" <> icon_path e "AppIcon-Dark.png" /\
  icon_path e "AppIcon.png" <> icon_path e "AppIcon-Tinted.png" /\
  icon_path e "AppIcon-Dark.png" <> icon_path e "AppIcon-Tinted.png".
Proof.
  unfold icon_path, path_join.
  repeat split; intros H; apply append_cancel_l in H; discriminate.
Qed.

Lemma saved_content_in (tr : list event) (name : string) (b : list Byte.byte) :
  saved_content tr name = Some b -> exists p, In (ESaved name p b) tr.
Proof.
  induction tr as [|ev tr IH]; cbn; [discriminate|].
  destruct ev; try (intros H; destruct (IH H) as [p Hp]; eauto).
  destruct (saved_content tr name) as [d'|] eqn:E.
  - intros H. destruct (IH H) as [p Hp]. eauto.
  - destruct (String.eqb name0 name) eqn:En; [|discriminate].
    apply String.eqb_eq in En. subst. intros H. injection H as <-. eauto.
Qed.

(** Unfold one run of [main] after fixing the three generated images and the
    outcome of [os.makedirs] and of each save. *)
Ltac run_main_cases HI1 HI2 HI3 e :=
  unfold run_main, main; rewrite ?HI1, ?HI2, ?HI3; cbn [the_icon];
  unfold makedirs, icon_path in *;
  destruct (env_makedirs_ok e) eqn:?;
  [ destruct (env_save e (path_join (output_dir e) "AppIcon.png")) eqn:?;
    destruct (env_save e (path_join (output_dir e) "AppIcon-Dark.png")) eqn:?;
    destruct (env_save e (path_join (output_dir e) "AppIcon-Tinted.png")) eqn:?
  | idtac ];
  unfold save;
  do 4 (cbn [bind log py_print generate ret raise app];
        repeat match goal with
               | H : env_save ?a ?b = _ |- context [env_save ?a ?b] => rewrite H
               end).

(** ** Claims on [main] *)

(** C8: [main] generates and saves the three icons one after the other, in
    the order AppIcon.png, AppIcon-Dark.png, AppIcon-Tinted.png.  An error
    (in [os.makedirs] or in a save) is not caught: [main] stops there, and
    nothing is cleaned up, so the files saved before keep their new content
    and every other path except the failing one is as it was. *)
Theorem main_sequential_no_cleanup (png_encode : image -> list Byte.byte) (e : env) :
  let p1 := icon_path e "AppIcon.png" in
  let p2 := icon_path e "AppIcon-Dark.png" in
  let p3 := icon_path e "AppIcon-Tinted.png" in
  let b1 := png_encode (the_icon generate_main_icon) in
  let b2 := png_encode (the_icon generate_dark_icon) in
  let b3 := png_encode (the_icon generate_tinted_icon) in
  let '(res, (fs, tr)) := run_main png_encode e in
  (env_makedirs_ok e = false ->
     res = None /\ io_events tr = [] /\ forall q, fs q = env_fs e q) /\
  (env_makedirs_ok e = true -> env_save e p1 <> SaveOk ->
     res = None /\
     io_events tr = [EGenerate "main"; ESaveFailed "AppIcon.png" p1] /\
     forall q, q <> p1 -> fs q = env_fs e q) /\
  (env_makedirs_ok e = true -> env_save e p1 = SaveOk -> env_save e p2 <> SaveOk ->
     res = None /\
     io_events tr = [EGenerate "main"; ESaved "AppIcon.png" p1 b1;
                     EGenerate "dark"; ESaveFailed "AppIcon-Dark.png" p2] /\
     fs p1 = Some (Png b1) /\
     forall q, q <> p1 -> q <> p2 -> fs q = env_fs e q) /\
  (env_makedirs_ok e = true -> env_save e p1 = SaveOk -> env_save e p2 = SaveOk ->
   env_save e p3 <> SaveOk ->
     res = None /\
     io_events tr = [EGenerate "main"; ESaved "AppIcon.png" p1 b1;
                     EGenerate "dark"; ESaved "AppIcon-Dark.png" p2 b2;
                     EGenerate "tinted"; ESaveFailed "AppIcon-Tinted.png" p3] /\
     fs p1 = Some (Png b1) /\ fs p2 = Some (Png b2) /\
     forall q, q <> p1 -> q <> p2 -> q <> p3 -> fs q = env_fs e q) /\
  (env_makedirs_ok e = true -> env_save e p1 = SaveOk -> env_save e p2 = SaveOk ->
   env_save e p3 = SaveOk ->
     res = Some tt /\
     io_events tr = [EGenerate "main"; ESaved "AppIcon.png" p1 b1;
                     EGenerate "dark"; ESaved "AppIcon-Dark.png" p2 b2;
                     EGenerate "tinted"; ESaved "AppIcon-Tinted.png" p3 b3] /\
     fs p1 = Some (Png b1) /\ fs p2 = Some (Png b2) /\ fs p3 = Some (Png b3) /\
     forall q, q <> p1 -> q <> p2 -> q <> p3 -> fs q = env_fs e q).
Proof.
  destruct generate_main_icon_ok as [I1 HI1].
  destruct generate_dark_icon_ok as [I2 HI2].
  destruct generate_tinted_icon_some as [I3 HI3].
  destruct (icon_paths_distinct e) as [D12 [D13 D23]].
  cbv zeta.
  run_main_cases HI1 HI2 HI3 e.
  all: cbn [io_events filter is_io_event fs_update].
  all: repeat match goal with
              | |- _ /\ _ => split
              | |- _ -> _ => intros
              end; try congruence.
  all: unfold fs_update;
       repeat match goal with
              | |- context [String.eqb ?a ?b] => destruct (String.eqb_spec a b)
              end; congruence.
Qed.

Lemma main_sequential_no_cleanup_witness :
  let e := {| env_project_dir := "/work/gymtrackpromax";
              env_makedirs_ok := true;
              env_save := fun _ => SaveOk;
              env_fs := fun _ => None |} in
  env_makedirs_ok e = true /\
  (let p1 := icon_path e "AppIcon.png" in
   let p2 := icon_path e "AppIcon-Dark.png" in
   let p3 := icon_path e "AppIcon-Tinted.png" in
   let b1 := (fun _ : image => @nil Byte.byte) (the_icon generate_main_icon) in
   let b2 := (fun _ : image => @nil Byte.byte) (the_icon generate_dark_icon) in
   let b3 := (fun _ : image => @nil Byte.byte) (the_icon generate_tinted_icon) in
   let '(res, (fs, tr)) := run_main (fun _ => nil) e in
   (env_makedirs_ok e = false ->
      res = None /\ io_events tr = [] /\ forall q, fs q = env_fs e q) /\
   (env_makedirs_ok e = true -> env_save e p1 <> SaveOk ->
      res = None /\
      io_events tr = [EGenerate "main"; ESaveFailed "AppIcon.png" p1] /\
      forall q, q <> p1 -> fs q = env_fs e q) /\
   (env_makedirs_ok e = true -> env_save e p1 = SaveOk -> env_save e p2 <> SaveOk ->
      res = None /\
      io_events tr = [EGenerate "main"; ESaved "AppIcon.png" p1 b1;
                      EGenerate "dark"; ESaveFailed "AppIcon-Dark.png" p2] /\
      fs p1 = Some (Png b1) /\
      forall q, q <> p1 -> q <> p2 -> fs q = env_fs e q) /\
   (env_makedirs_ok e = true -> env_save e p1 = SaveOk -> env_save e p2 = SaveOk ->
    env_save e p3 <> SaveOk ->
      res = None /\
      io_events tr = [EGenerate "main"; ESaved "AppIcon.png" p1 b1;
                      EGenerate "dark"; ESaved "AppIcon-Dark.png" p2 b2;
                      EGenerate "tinted"; ESaveFailed "AppIcon-Tinted.png" p3] /\
      fs p1 = Some (Png b1) /\ fs p2 = Some (Png b2) /\
      forall q, q <> p1 -> q <> p2 -> q <> p3 -> fs q = env_fs e q) /\
   (env_makedirs_ok e = true -> env_save e p1 = SaveOk -> env_save e p2 = SaveOk ->
    env_save e p3 = SaveOk ->
      res = Some tt /\
      io_events tr = [EGenerate "main"; ESaved "AppIcon.png" p1 b1;
                      EGenerate "dark"; ESaved "AppIcon-Dark.png" p2 b2;
                      EGenerate "tinted"; ESaved "AppIcon-Tinted.png" p3 b3] /\
      fs p1 = Some (Png b1) /\ fs p2 = Some (Png b2) /\ fs p3 = Some (Png b3) /\
      forall q, q <> p1 -> q <> p2 -> q <> p3 -> fs q = env_fs e q)).
Proof.
  intros e. split; [reflexivity|].
  exact (main_sequential_no_cleanup (fun _ => nil) e).
Defined.

Lemma run_main_saved (png_encode : image -> list Byte.byte) (e : env)
  (name p : string) (b : list Byte.byte) :
  In (ESaved name p b) (snd (snd (run_main png_encode e))) ->
  b = png_encode (the_icon (variant_of_file name)).
Proof.
  destruct generate_main_icon_ok as [I1 HI1].
  destruct generate_dark_icon_ok as [I2 HI2].
  destruct generate_tinted_icon_some as [I3 HI3].
  unfold variant_of_file. rewrite HI1, HI2, HI3.
  run_main_cases HI1 HI2 HI3 e.
  all: cbn [snd In]; intros H.
  all: repeat match goal with
         | H : _ \/ _ |- _ => destruct H as [H|H]
         | H : False |- _ => contradiction
         | H : EPrint _ = ESaved _ _ _ |- _ => discriminate H
         | H : EMakedirs _ = ESaved _ _ _ |- _ => discriminate H
         | H : EGenerate _ = ESaved _ _ _ |- _ => discriminate H
         | H : ESaveFailed _ _ = ESaved _ _ _ |- _ => discriminate H
         end.
  all: injection H as <- <- <-; reflexivity.
Qed.


(** ** Further properties of the code *)

(** *** [interpolate_color] *)

Lemma interp_channel_mono (a b : Z) (r r' : Q) :
  (r <= r')%Q ->
  (a <= b -> interp_channel a b r <= interp_channel a b r') /\
  (b <= a -> interp_channel a b r' <= interp_channel a b r).
Proof.
  intros Hr. unfold interp_channel. split; intros Hab; apply py_int_mono.
  - assert (Hd : (0 <= inject_Z (b - a))%Q)
      by (change 0%Q with (inject_Z 0); rewrite <- Zle_Qle; lia).
    assert (0 <= inject_Z (b - a) * (r' - r))%Q by (apply Qmult_le_0_compat; lra).
    lra.
  - assert (Hd : (inject_Z (b - a) <= 0)%Q)
      by (change 0%Q with (inject_Z 0); rewrite <- Zle_Qle; lia).
    assert (0 <= - inject_Z (b - a) * (r' - r))%Q by (apply Qmult_le_0_compat; lra).
    lra.
Qed.

(** [interpolate_color] moves each channel monotonically from [color1]
    toward [color2] as the ratio grows, for any ratios (not only in [[0, 1]]):
    a channel that rises from [color1] to [color2] never decreases, and one
    that falls never increases. *)
Theorem interpolate_color_monotone (c1 c2 : color) (r r' : Q) :
  (r <= r')%Q ->
  let '(a1, a2, a3) := c1 in
  let '(b1, b2, b3) := c2 in
  let '(u1, u2, u3) := interpolate_color c1 c2 r in
  let '(v1, v2, v3) := interpolate_color c1 c2 r' in
  ((a1 <= b1 -> u1 <= v1) /\ (b1 <= a1 -> v1 <= u1)) /\
  ((a2 <= b2 -> u2 <= v2) /\ (b2 <= a2 -> v2 <= u2)) /\
  ((a3 <= b3 -> u3 <= v3) /\ (b3 <= a3 -> v3 <= u3)).
Proof.
  intros Hr. destruct c1 as [[a1 a2] a3], c2 as [[b1 b2] b3].
  unfold interpolate_color.
  split; [|split]; apply interp_channel_mono; exact Hr.
Qed.

Lemma interpolate_color_monotone_witness :
  (0 <= 1)%Q /\
  let '(a1, a2, a3) := COLORS_primary in
  let '(b1, b2, b3) := COLORS_accent in
  let '(u1, u2, u3) := interpolate_color COLORS_primary COLORS_accent 0 in
  let '(v1, v2, v3) := interpolate_color COLORS_primary COLORS_accent 1 in
  ((a1 <= b1 -> u1 <= v1) /\ (b1 <= a1 -> v1 <= u1)) /\
  ((a2 <= b2 -> u2 <= v2) /\ (b2 <= a2 -> v2 <= u2)) /\
  ((a3 <= b3 -> u3 <= v3) /\ (b3 <= a3 -> v3 <= u3)).
Proof.
  assert (H : (0 <= 1)%Q) by lra.
  split; [exact H|].
  exact (interpolate_color_monotone COLORS_primary COLORS_accent 0 1 H).
Defined.

(** [interpolate_color] with equal endpoints returns that colour for every
    ratio, and between two greys ([r = g = b]) it returns a grey. *)
Theorem interpolate_color_grey (c : color) (v w : Z) (r : Q) :
  interpolate_color c c r = c /\
  exists u, interpolate_color (v, v, v) (w, w, w) r = (u, u, u).
Proof.
  split.
  - assert (H : forall a, interp_channel a a r = a).
    { intros a. unfold interp_channel. transitivity (py_int (inject_Z a)).
      - apply py_int_comp. rewrite Z.sub_diag. cbv [inject_Z]. ring.
      - apply py_int_Z. }
    destruct c as [[a1 a2] a3]. unfold interpolate_color. now rewrite !H.
  - exists (interp_channel v w r). reflexivity.
Qed.

(** With size 0 the loops do not run, so no pixel is computed and the
    division by [max_dist = 0.0] never happens: the result is the empty
    0 x 0 image, without error. *)
Theorem create_radial_gradient_size_0 (c0 c1 : color) :
  create_radial_gradient 0 c0 c1 = Some (image_new 0 0 c0).
Proof. reflexivity. Qed.

(** *** [create_radial_gradient] *)

Lemma Int_part_mono (r r' : R) : (r <= r')%R -> Int_part r <= Int_part r'.
Proof.
  intros H. destruct (base_Int_part r) as [H1 H2], (base_Int_part r') as [H3 H4].
  destruct (Z_le_gt_dec (Int_part r) (Int_part r')) as [Hle|Hg]; [exact Hle|].
  exfalso. assert (Hz : Int_part r' + 1 <= Int_part r) by lia.
  apply IZR_le in Hz. rewrite plus_IZR in Hz. Lra.lra.
Qed.

Lemma Int_part_nonneg (r : R) : (0 <= r)%R -> 0 <= Int_part r.
Proof.
  intros H. replace 0 with (Int_part 0).
  - now apply Int_part_mono.
  - symmetry. apply Int_part_spec. Lra.lra.
Qed.

Lemma py_int_R_mono (r r' : R) : (r <= r')%R -> py_int_R r <= py_int_R r'.
Proof.
  intros H. unfold py_int_R.
  destruct (Rle_dec 0 r) as [H0|H0], (Rle_dec 0 r') as [H1|H1].
  - now apply Int_part_mono.
  - Lra.lra.
  - assert (A : 0 <= Int_part (- r)) by (apply Int_part_nonneg; Lra.lra).
    assert (B : 0 <= Int_part r') by (apply Int_part_nonneg; exact H1).
    lia.
  - assert (Int_part (- r') <= Int_part (- r)) by (apply Int_part_mono; Lra.lra). lia.
Qed.

Lemma grad_channel_mono (a b : Z) (q q' : R) :
  (q <= q')%R ->
  (a <= b -> grad_channel a b q <= grad_channel a b q') /\
  (b <= a -> grad_channel a b q' <= grad_channel a b q).
Proof.
  intros Hq. unfold grad_channel. split; intros Hab; apply py_int_R_mono.
  - apply Rplus_le_compat_l. apply Rmult_le_compat_l; [apply IZR_le; lia | exact Hq].
  - apply Rplus_le_compat_l.
    assert (0 <= IZR (a - b))%R by (apply IZR_le; lia).
    replace (IZR (b - a)) with (- IZR (a - b))%R by (rewrite <- opp_IZR; f_equal; lia).
    apply Ropp_le_cancel. rewrite !Ropp_mult_distr_l_reverse, !Ropp_involutive.
    apply Rmult_le_compat_l; assumption.
Qed.

Lemma grad_channel_0 (a b : Z) : grad_channel a b 0 = a.
Proof. unfold grad_channel. rewrite Rmult_0_r, Rplus_0_r. apply py_int_R_IZR. Qed.

Lemma grad_channel_1 (a b : Z) : grad_channel a b 1 = b.
Proof.
  unfold grad_channel. rewrite Rmult_1_r, minus_IZR.
  replace (IZR a + (IZR b - IZR a))%R with (IZR b) by ring. apply py_int_R_IZR.
Qed.

Lemma grad_channel_between (a b : Z) (q : R) :
  (0 <= q <= 1)%R -> between a b (grad_channel a b q).
Proof.
  intros [H0 H1]. unfold between.
  destruct (grad_channel_mono a b 0 q H0) as [A1 A2].
  destruct (grad_channel_mono a b q 1 H1) as [B1 B2].
  rewrite grad_channel_0 in A1, A2. rewrite grad_channel_1 in B1, B2.
  destruct (Z.le_ge_cases a b) as [H|H].
  - rewrite Z.min_l, Z.max_r by lia. specialize (A1 H). specialize (B1 H). lia.
  - rewrite Z.min_r, Z.max_l by lia. specialize (A2 H). specialize (B2 H). lia.
Qed.

Lemma gradient_ratio_range (size : Z) (d : R) :
  2 <= size -> (0 <= d)%R -> (0 <= gradient_ratio size d <= 1)%R.
Proof.
  intros Hs Hd. pose proof (max_dist_pos size Hs) as Hm. unfold gradient_ratio. split.
  - apply Rmin_glb; [|Lra.lra]. unfold Rdiv. apply Rmult_le_pos; [exact Hd|].
    left. now apply Rinv_0_lt_compat.
  - apply Rmin_r.
Qed.

Lemma grad_dist_le (size x y x' y' : Z) :
  (x - size / 2) ^ 2 + (y - size / 2) ^ 2 <= (x' - size / 2) ^ 2 + (y' - size / 2) ^ 2 ->
  (grad_dist size x y <= grad_dist size x' y')%R.
Proof. intros H. unfold grad_dist. apply sqrt_le_1_alt. now apply IZR_le. Qed.

Lemma create_radial_gradient_px (size : Z) (c0 c1 : color) :
  2 <= size ->
  exists img, create_radial_gradient size c0 c1 = Some img /\
    forall x y, 0 <= x < size -> 0 <= y < size -> px img x y = grad_color size c0 c1 x y.
Proof.
  intros Hs. destruct (create_radial_gradient_ok size c0 c1 Hs) as [img [Hf [_ [_ Hp]]]].
  exists img. split; [exact Hf|]. intros x y Hx Hy. rewrite Hp.
  replace ((0 <=? x) && (x <? size) && (0 <=? y) && (y <? size)) with true; [reflexivity|].
  symmetry. rewrite !andb_true_iff, !Z.leb_le, !Z.ltb_lt. lia.
Qed.

(** For every size [S >= 2], every pixel of [create_radial_gradient S C0 C1]
    has each channel between the corresponding channels of [C0] and [C1]. *)
Theorem create_radial_gradient_bounded (size : Z) (c0 c1 : color) :
  2 <= size ->
  exists img, create_radial_gradient size c0 c1 = Some img /\
    forall x y,
      let '(r0, g0, b0) := c0 in
      let '(r1, g1, b1) := c1 in
      let '(r, g, b) := px img x y in
      between r0 r1 r /\ between g0 g1 g /\ between b0 b1 b.
Proof.
  intros Hs. destruct (create_radial_gradient_ok size c0 c1 Hs) as [img [Hf [_ [_ Hp]]]].
  exists img. split; [exact Hf|]. intros x y. rewrite Hp.
  pose proof (gradient_ratio_range size (grad_dist size x y) Hs (sqrt_pos _)) as Hq.
  destruct c0 as [[r0 g0] b0], c1 as [[r1 g1] b1].
  destruct (_ && _ && _ && _).
  - unfold grad_color, lerp_R.
    split; [|split]; apply grad_channel_between; exact Hq.
  - unfold between. repeat split; lia.
Qed.

Lemma create_radial_gradient_bounded_witness :
  2 <= SIZE /\
  exists img, create_radial_gradient SIZE COLORS_card COLORS_background = Some img /\
    forall x y,
      let '(r0, g0, b0) := COLORS_card in
      let '(r1, g1, b1) := COLORS_background in
      let '(r, g, b) := px img x y in
      between r0 r1 r /\ between g0 g1 g /\ between b0 b1 b.
Proof.
  assert (H : 2 <= SIZE) by (unfold SIZE; lia).
  split; [exact H|].
  exact (create_radial_gradient_bounded SIZE COLORS_card COLORS_background H).
Defined.

(** For every size [S >= 2], the gradient is radial: two pixels of the
    image at the same squared distance from [(S//2, S//2)] have the same
    colour (so it is symmetric under the mirrors through the centre and the
    swap of [x] and [y], within the image). *)
Theorem create_radial_gradient_radial (size : Z) (c0 c1 : color) :
  2 <= size ->
  exists img, create_radial_gradient size c0 c1 = Some img /\
    forall x y x' y', 0 <= x < size -> 0 <= y < size -> 0 <= x' < size -> 0 <= y' < size ->
      (x - size / 2) ^ 2 + (y - size / 2) ^ 2 = (x' - size / 2) ^ 2 + (y' - size / 2) ^ 2 ->
      px img x y = px img x' y'.
Proof.
  intros Hs. destruct (create_radial_gradient_px size c0 c1 Hs) as [img [Hf Hp]].
  exists img. split; [exact Hf|]. intros x y x' y' Hx Hy Hx' Hy' Hd.
  rewrite (Hp x y Hx Hy), (Hp x' y' Hx' Hy').
  unfold grad_color, grad_dist. rewrite Hd. reflexivity.
Qed.

Lemma create_radial_gradient_radial_witness :
  2 <= SIZE /\
  exists img, create_radial_gradient SIZE COLORS_card COLORS_background = Some img /\
    forall x y x' y', 0 <= x < SIZE -> 0 <= y < SIZE -> 0 <= x' < SIZE -> 0 <= y' < SIZE ->
      (x - SIZE / 2) ^ 2 + (y - SIZE / 2) ^ 2 = (x' - SIZE / 2) ^ 2 + (y' - SIZE / 2) ^ 2 ->
      px img x y = px img x' y'.
Proof.
  assert (H : 2 <= SIZE) by (unfold SIZE; lia).
  split; [exact H|].
  exact (create_radial_gradient_radial SIZE COLORS_card COLORS_background H).
Defined.

(** For every size [S >= 2], the colour changes monotonically with the
    distance from the centre: for a pixel at most as far from [(S//2, S//2)]
    as another, each channel is at least as close to the centre colour's
    channel (no larger if that channel rises toward the edge colour, no
    smaller if it falls). *)
Theorem create_radial_gradient_monotone (size : Z) (c0 c1 : color) :
  2 <= size ->
  exists img, create_radial_gradient size c0 c1 = Some img /\
    forall x y x' y', 0 <= x < size -> 0 <= y < size -> 0 <= x' < size -> 0 <= y' < size ->
      (x - size / 2) ^ 2 + (y - size / 2) ^ 2 <= (x' - size / 2) ^ 2 + (y' - size / 2) ^ 2 ->
      let '(r0, g0, b0) := c0 in
      let '(r1, g1, b1) := c1 in
      let '(r, g, b) := px img x y in
      let '(r', g', b') := px img x' y' in
      ((r0 <= r1 -> r <= r') /\ (r1 <= r0 -> r' <= r)) /\
      ((g0 <= g1 -> g <= g') /\ (g1 <= g0 -> g' <= g)) /\
      ((b0 <= b1 -> b <= b') /\ (b1 <= b0 -> b' <= b)).
Proof.
  intros Hs. destruct (create_radial_gradient_px size c0 c1 Hs) as [img [Hf Hp]].
  exists img. split; [exact Hf|]. intros x y x' y' Hx Hy Hx' Hy' Hd.
  rewrite (Hp x y Hx Hy), (Hp x' y' Hx' Hy').
  assert (Hq : (gradient_ratio size (grad_dist size x y) <=
                gradient_ratio size (grad_dist size x' y'))%R).
  { apply gradient_ratio_mono; [exact Hs|]. split; [apply sqrt_pos|].
    now apply grad_dist_le. }
  destruct c0 as [[r0 g0] b0], c1 as [[r1 g1] b1].
  unfold grad_color, lerp_R.
  split; [|split]; apply grad_channel_mono; exact Hq.
Qed.

Lemma create_radial_gradient_monotone_witness :
  2 <= SIZE /\
  exists img, create_radial_gradient SIZE COLORS_card COLORS_background = Some img /\
    forall x y x' y', 0 <= x < SIZE -> 0 <= y < SIZE -> 0 <= x' < SIZE -> 0 <= y' < SIZE ->
      (x - SIZE / 2) ^ 2 + (y - SIZE / 2) ^ 2 <= (x' - SIZE / 2) ^ 2 + (y' - SIZE / 2) ^ 2 ->
      let '(r0, g0, b0) := COLORS_card in
      let '(r1, g1, b1) := COLORS_background in
      let '(r, g, b) := px img x y in
      let '(r', g', b') := px img x' y' in
      ((r0 <= r1 -> r <= r') /\ (r1 <= r0 -> r' <= r)) /\
      ((g0 <= g1 -> g <= g') /\ (g1 <= g0 -> g' <= g)) /\
      ((b0 <= b1 -> b <= b') /\ (b1 <= b0 -> b' <= b)).
Proof.
  assert (H : 2 <= SIZE) by (unfold SIZE; lia).
  split; [exact H|].
  exact (create_radial_gradient_monotone SIZE COLORS_card COLORS_background H).
Defined.

(** *** [draw_rounded_rect] and [draw_dumbbell] *)

Lemma last_cover_some_covers (ops : list draw_op) (x y : Z) (c : color) :
  last_cover ops x y = Some c ->
  exists op, In op ops /\ op_covers op x y = true /\ op_fill op = c.
Proof.
  induction ops as [|op ops IH]; cbn; [discriminate|].
  destruct (last_cover ops x y) as [c'|].
  - intros E. destruct (IH E) as [o [Ho Hc]]. exists o. split; [now right | exact Hc].
  - destruct (op_covers op x y) eqn:Ec; intros E; [|discriminate].
    injection E as <-. exists op. auto.
Qed.

Lemma last_cover_app (l1 l2 : list draw_op) (x y : Z) :
  last_cover (l1 ++ l2) x y =
  match last_cover l2 x y with Some c => Some c | None => last_cover l1 x y end.
Proof.
  induction l1 as [|op l1 IH]; cbn.
  - now destruct (last_cover l2 x y).
  - rewrite IH. now destruct (last_cover l2 x y).
Qed.

Lemma last_cover_map (g : Z -> draw_op) (l : list Z) (x y : Z) :
  last_cover (map g l) x y =
  option_map (fun i => op_fill (g i)) (last_idx (fun i => op_covers (g i) x y) l).
Proof.
  induction l as [|i l IH]; cbn; [reflexivity|]. rewrite IH.
  destruct (last_idx _ l); cbn; [reflexivity|].
  now destruct (op_covers (g i) x y).
Qed.

Lemma last_idx_ext (f f' : Z -> bool) (l : list Z) :
  (forall i, In i l -> f i = f' i) -> last_idx f l = last_idx f' l.
Proof.
  induction l as [|i l IH]; intros H; cbn; [reflexivity|].
  rewrite IH by (intros; apply H; now right). now rewrite (H i (or_introl eq_refl)).
Qed.

Lemma last_cover_outside (ops : list draw_op) (l t r b x y : Z) :
  forallb (fun op => bbox_within l t r b (op_bbox op)) ops = true ->
  ~ (l <= x <= r /\ t <= y <= b) -> last_cover ops x y = None.
Proof.
  intros Hall Hout. apply last_cover_none. intros op Hin.
  destruct (op_covers op x y) eqn:E; [|reflexivity].
  exfalso. apply Hout. rewrite forallb_forall in Hall. specialize (Hall op Hin).
  apply op_covers_bbox in E. destruct (op_bbox op) as [[[x0 y0] x1] y1].
  unfold bbox_within in Hall. rewrite !andb_true_iff, !Z.leb_le in Hall. lia.
Qed.

(** For a radius [R >= 0] with [2R <= x2 - x1] and [2R <= y2 - y1],
    [draw_rounded_rect] keeps the image size and changes no pixel outside
    the box [x1..x2] x [y1..y2]; every pixel it changes gets the fill colour. *)
Theorem draw_rounded_rect_within (img : image) (x1 y1 x2 y2 radius : Z) (fill : color) :
  0 <= radius -> 2 * radius <= x2 - x1 -> 2 * radius <= y2 - y1 ->
  let img' := apply_ops img (draw_rounded_rect (x1, y1, x2, y2) radius fill) in
  width img' = width img /\ height img' = height img /\
  forall x y, px img' x y = px img x y \/
              (x1 <= x <= x2 /\ y1 <= y <= y2 /\ px img' x y = fill).
Proof.
  intros HR HW HH img'.
  destruct (apply_ops_size img (draw_rounded_rect (x1, y1, x2, y2) radius fill)) as [Hw Hh].
  split; [exact Hw|]. split; [exact Hh|].
  intros x y. unfold img'. rewrite apply_ops_px.
  destruct (in_canvas img x y); [|left; reflexivity].
  destruct (last_cover _ x y) as [c|] eqn:E; [|left; reflexivity].
  right. destruct (last_cover_some_covers _ x y c E) as [op [Hin [Hc Hf]]].
  cbn [draw_rounded_rect In] in Hin.
  repeat destruct Hin as [<-|Hin]; try destruct Hin;
    apply op_covers_bbox in Hc; cbn [op_bbox op_fill] in Hc, Hf; unfold Qz in Hc;
    rewrite !py_int_Z in Hc; subst c; repeat split; lia.
Qed.

Lemma draw_rounded_rect_within_witness :
  (0 <= 2 /\ 2 * 2 <= 8 - 1 /\ 2 * 2 <= 8 - 1) /\
  let img' := apply_ops black_canvas (draw_rounded_rect (1, 1, 8, 8) 2 (255, 255, 255)) in
  width img' = width black_canvas /\ height img' = height black_canvas /\
  forall x y, px img' x y = px black_canvas x y \/
              (1 <= x <= 8 /\ 1 <= y <= 8 /\ px img' x y = (255, 255, 255)).
Proof.
  split; [lia|].
  apply (draw_rounded_rect_within black_canvas 1 1 8 8 2 (255, 255, 255)); lia.
Defined.

(** For a radius [R >= 0] with [2R <= x2 - x1] and [2R <= y2 - y1],
    [draw_rounded_rect] paints with the fill colour every pixel of the canvas
    in the cross made of its two rectangles: columns [x1+R..x2-R] over the
    full height of the box, and rows [y1+R..y2-R] over its full width. *)
Theorem draw_rounded_rect_cross (img : image) (x1 y1 x2 y2 radius : Z) (fill : color)
  (x y : Z) :
  0 <= radius -> 2 * radius <= x2 - x1 -> 2 * radius <= y2 - y1 ->
  in_canvas img x y = true ->
  ((x1 + radius <= x <= x2 - radius /\ y1 <= y <= y2) \/
   (x1 <= x <= x2 /\ y1 + radius <= y <= y2 - radius)) ->
  px (apply_ops img (draw_rounded_rect (x1, y1, x2, y2) radius fill)) x y = fill.
Proof.
  intros HR HW HH Hc Hcov. rewrite apply_ops_px, Hc.
  assert (Hfill : forall op, In op (draw_rounded_rect (x1, y1, x2, y2) radius fill) ->
                             op_fill op = fill).
  { intros op Hin. cbn in Hin.
    repeat destruct Hin as [<-|Hin]; try reflexivity. destruct Hin. }
  rewrite (last_cover_uniform _ x y fill Hfill); [reflexivity|].
  destruct Hcov as [Hv|Hv].
  - eexists. split; [left; reflexivity|]. rewrite rect_covers_Z.
    unfold in_box. rewrite !andb_true_iff, !Z.leb_le. lia.
  - eexists. split; [right; left; reflexivity|]. rewrite rect_covers_Z.
    unfold in_box. rewrite !andb_true_iff, !Z.leb_le. lia.
Qed.

Lemma draw_rounded_rect_cross_witness :
  (0 <= 2 /\ 2 * 2 <= 8 - 1 /\ 2 * 2 <= 8 - 1 /\ in_canvas black_canvas 2 5 = true /\
   ((1 + 2 <= 2 <= 8 - 2 /\ 1 <= 5 <= 8) \/ (1 <= 2 <= 8 /\ 1 + 2 <= 5 <= 8 - 2))) /\
  px (apply_ops black_canvas (draw_rounded_rect (1, 1, 8, 8) 2 (255, 255, 255))) 2 5
    = (255, 255, 255).
Proof.
  assert (Hc : in_canvas black_canvas 2 5 = true) by reflexivity.
  split; [repeat split; try lia; exact Hc|].
  apply (draw_rounded_rect_cross black_canvas 1 1 8 8 2 (255, 255, 255) 2 5);
    [lia | lia | lia | exact Hc | right; lia].
Defined.

Lemma bar_segment_covers (p a : color) (i x y : Z) :
  op_covers (bar_segment p a i) x y = in_box (312 + 20 * i) 482 (333 + 20 * i) 542 x y.
Proof.
  assert (Hw : (segment_width == 20)%Q) by reflexivity.
  assert (E1 : py_int (Qz bar_left + Qz i * segment_width) = 312 + 20 * i).
  { rewrite <- (py_int_Z (312 + 20 * i)). apply py_int_comp. rewrite Hw.
    unfold Qz. rewrite inject_Z_plus, inject_Z_mult.
    change (inject_Z bar_left) with (inject_Z 312). cbv [inject_Z]. ring. }
  assert (E2 : py_int (Qz bar_left + Qz (i + 1) * segment_width + 1) = 333 + 20 * i).
  { rewrite <- (py_int_Z (333 + 20 * i)). apply py_int_comp. rewrite Hw.
    unfold Qz. rewrite !inject_Z_plus, inject_Z_mult.
    change (inject_Z bar_left) with (inject_Z 312). set (q := inject_Z i).
    cbv [inject_Z]. ring. }
  unfold bar_segment. cbn [op_covers]. rewrite E1, E2. unfold Qz. rewrite !py_int_Z.
  reflexivity.
Qed.

Lemma bar_columns :
  forallb (fun x =>
    match last_idx (fun i => (312 + 20 * i <=? x) && (x <=? 333 + 20 * i)) (py_range 20) with
    | Some j => j =? (x - 312) / 20
    | None => false
    end) (map (fun k => 413 + k) (py_range 199)) = true.
Proof. vm_compute. reflexivity. Qed.

(** Between the plates ([413 <= x <= 611]) and on the rows of the bar
    ([482 <= y <= 542]), each pixel of the canvas is painted by
    [draw_dumbbell] with the colour of bar segment [i = (x - 312) // 20],
    [interpolate_color(primary, accent, i / 19)]: the one-unit overlap gives
    the segment's last column to the next segment, and leaves no gap. *)
Theorem draw_dumbbell_bar_colors (img : image) (primary accent : color) (x y : Z) :
  413 <= x <= 611 -> 482 <= y <= 542 -> in_canvas img x y = true ->
  px (draw_dumbbell img primary accent) x y =
    interpolate_color primary accent (Qz ((x - 312) / 20) / 19).
Proof.
  intros Hx Hy Hc. unfold draw_dumbbell. rewrite apply_ops_px, Hc.
  change (draw_dumbbell_ops primary accent) with
    ((left_plate primary ++ left_inset primary) ++
     (bar_ops primary accent ++ (right_plate accent ++ right_inset accent))).
  rewrite last_cover_app, (last_cover_app (bar_ops primary accent)).
  rewrite (last_cover_outside (right_plate accent ++ right_inset accent) 612 372 732 652)
    by (try (vm_compute; reflexivity); lia).
  unfold bar_ops. rewrite last_cover_map.
  rewrite (last_idx_ext _ (fun i => (312 + 20 * i <=? x) && (x <=? 333 + 20 * i))).
  2:{ intros i _. rewrite bar_segment_covers. unfold in_box.
      replace (482 <=? y) with true by (symmetry; apply Z.leb_le; lia).
      replace (y <=? 542) with true by (symmetry; apply Z.leb_le; lia).
      now rewrite !andb_true_r. }
  pose proof bar_columns as Hall. rewrite forallb_forall in Hall.
  specialize (Hall x). 
  assert (Hin : In x (map (fun k => 413 + k) (py_range 199))).
  { apply in_map_iff. exists (x - 413). split; [lia|].
    unfold py_range. apply in_map_iff. exists (Z.to_nat (x - 413)).
    split; [lia|]. apply in_seq. lia. }
  specialize (Hall Hin).
  change (py_range bar_segments) with (py_range 20).
  destruct (last_idx _ (py_range 20)) as [j|]; [|discriminate].
  apply Z.eqb_eq in Hall. subst j. reflexivity.
Qed.

Lemma draw_dumbbell_bar_colors_witness :
  (413 <= 500 <= 611 /\ 482 <= 512 <= 542 /\
   in_canvas (image_new 1024 1024 (0, 0, 0)) 500 512 = true) /\
  px (draw_dumbbell (image_new 1024 1024 (0, 0, 0)) COLORS_primary COLORS_accent) 500 512 =
    interpolate_color COLORS_primary COLORS_accent (Qz ((500 - 312) / 20) / 19).
Proof.
  assert (Hc : in_canvas (image_new 1024 1024 (0, 0, 0)) 500 512 = true) by reflexivity.
  split; [repeat split; try lia; exact Hc|].
  apply draw_dumbbell_bar_colors; [lia | lia | exact Hc].
Defined.

(** *** The three generators *)

Lemma draw_dumbbell_outside (img : image) (primary accent : color) (x y : Z) :
  ~ (292 <= x <= 732 /\ 372 <= y <= 652) ->
  px (draw_dumbbell img primary accent) x y = px img x y.
Proof.
  intros Hout. unfold draw_dumbbell. rewrite apply_ops_px.
  rewrite (last_cover_outside _ 292 372 732 652 x y (draw_dumbbell_ops_within primary accent) Hout).
  now destruct (in_canvas img x y).
Qed.

Lemma icon_background (c0 c1 p a : color) :
  exists img, Some (draw_dumbbell img p a) =
    match create_radial_gradient SIZE c0 c1 with
    | None => None | Some img => Some (draw_dumbbell img p a) end /\
    width (draw_dumbbell img p a) = SIZE /\ height (draw_dumbbell img p a) = SIZE /\
    forall x y, 0 <= x < SIZE -> 0 <= y < SIZE -> ~ (292 <= x <= 732 /\ 372 <= y <= 652) ->
      px (draw_dumbbell img p a) x y = grad_color SIZE c0 c1 x y.
Proof.
  destruct (create_radial_gradient_ok SIZE c0 c1) as [img [Hf [Hw [Hh Hp]]]];
    [unfold SIZE; lia|].
  exists img. rewrite Hf. split; [reflexivity|].
  destruct (apply_ops_size img (draw_dumbbell_ops p a)) as [Hw' Hh'].
  unfold draw_dumbbell at 1 2. rewrite Hw', Hh'. split; [exact Hw|]. split; [exact Hh|].
  intros x y Hx Hy Hout. rewrite draw_dumbbell_outside by exact Hout. rewrite Hp.
  replace ((0 <=? x) && (x <? SIZE) && (0 <=? y) && (y <? SIZE)) with true; [reflexivity|].
  symmetry. rewrite !andb_true_iff, !Z.leb_le, !Z.ltb_lt. lia.
Qed.

(** Each generator returns a 1024 x 1024 image whose pixels outside the
    dumbbell's frame [292..732] x [372..652] are those of its radial gradient
    (card to background for the main icon, (20, 30, 50) to (10, 15, 30) for
    the dark one, (60, 60, 60) to (30, 30, 30) for the tinted one). *)
Theorem generated_icons_background :
  (exists img, generate_main_icon = Some img /\ width img = SIZE /\ height img = SIZE /\
     forall x y, 0 <= x < SIZE -> 0 <= y < SIZE -> ~ (292 <= x <= 732 /\ 372 <= y <= 652) ->
       px img x y = grad_color SIZE COLORS_card COLORS_background x y) /\
  (exists img, generate_dark_icon = Some img /\ width img = SIZE /\ height img = SIZE /\
     forall x y, 0 <= x < SIZE -> 0 <= y < SIZE -> ~ (292 <= x <= 732 /\ 372 <= y <= 652) ->
       px img x y = grad_color SIZE dark_center dark_edge x y) /\
  (exists img, generate_tinted_icon = Some img /\ width img = SIZE /\ height img = SIZE /\
     forall x y, 0 <= x < SIZE -> 0 <= y < SIZE -> ~ (292 <= x <= 732 /\ 372 <= y <= 652) ->
       px img x y = grad_color SIZE (60, 60, 60) (30, 30, 30) x y).
Proof.
  split; [|split].
  - destruct (icon_background COLORS_card COLORS_background COLORS_primary COLORS_accent)
      as [img [He H]].
    exists (draw_dumbbell img COLORS_primary COLORS_accent).
    split; [unfold generate_main_icon; symmetry; exact He | exact H].
  - destruct (icon_background dark_center dark_edge COLORS_primary_light COLORS_accent)
      as [img [He H]].
    exists (draw_dumbbell img COLORS_primary_light COLORS_accent).
    split; [unfold generate_dark_icon; symmetry; exact He | exact H].
  - destruct (icon_background (60, 60, 60) (30, 30, 30) (180, 180, 180) (220, 220, 220))
      as [img [He H]].
    exists (draw_dumbbell img (180, 180, 180) (220, 220, 220)).
    split; [unfold generate_tinted_icon; symmetry; exact He | exact H].
Qed.
